(** * LPA* planner (lpa_star.h): data model, open list and search rules

    The header [src/planner/graph_planner/include/lpa_star.h] declares the
    sentinel [INF], the search node [LNode] and the planner class [LPAStar]
    with its open list [std::multimap<double, LNodePtr>].  The member
    functions are declared there and defined elsewhere; their models below
    are marked as such.

    [double] is IEEE binary64, embedded as Rocq's primitive [float]. *)

From Stdlib Require Import ZArith Bool Lia Floats Sorted.
From stdpp Require Import base option list gmap.

Open Scope Z_scope.

(** ** Comparisons on [double] *)

Module Double.

Definition SFnn (f : spec_float) : bool :=
  match f with S754_nan => false | _ => true end.

Ltac cmp_cases :=
  repeat match goal with
  | |- context [(?a ?= ?b)%Z] => destruct (Z.compare_spec a b)
  | |- context [PosDef.Pos.compare_cont Eq ?a ?b] =>
      change (PosDef.Pos.compare_cont Eq a b) with (Pos.compare a b);
      destruct (Pos.compare_spec a b)
  | H : context [(?a ?= ?b)%Z] |- _ => destruct (Z.compare_spec a b)
  | H : context [PosDef.Pos.compare_cont Eq ?a ?b] |- _ =>
      change (PosDef.Pos.compare_cont Eq a b) with (Pos.compare a b) in H;
      destruct (Pos.compare_spec a b)
  end.

Ltac sf_crush :=
  simpl in *; try discriminate; try congruence;
  repeat match goal with s : bool |- _ => destruct s end;
  simpl in *; try discriminate; try congruence;
  cmp_cases; simpl in *; subst; try discriminate; try congruence; try lia.

Lemma SFcompare_refl f : SFnn f = true -> SFcompare f f = Some Eq.
Proof. destruct f as [s|s| |s m e]; intros; sf_crush. Qed.

Lemma SFcompare_nan_l a b c : SFcompare a b = Some c -> SFnn a = true.
Proof. destruct a, b; simpl; congruence. Qed.

Lemma SFcompare_lt_trans a b c :
  SFcompare a b = Some Lt -> SFcompare b c = Some Lt -> SFcompare a c = Some Lt.
Proof.
  destruct a as [s1|s1| |s1 m1 e1], b as [s2|s2| |s2 m2 e2],
    c as [s3|s3| |s3 m3 e3]; intros H1 H2; sf_crush.
Qed.

Lemma ltb_compare a b :
  PrimFloat.ltb a b = true <-> SFcompare (Prim2SF a) (Prim2SF b) = Some Lt.
Proof.
  rewrite FloatAxioms.ltb_spec. unfold SFltb.
  destruct (SFcompare (Prim2SF a) (Prim2SF b)) as [[]|]; split; congruence.
Qed.

Lemma eqb_compare a b :
  PrimFloat.eqb a b = true <-> SFcompare (Prim2SF a) (Prim2SF b) = Some Eq.
Proof.
  rewrite FloatAxioms.eqb_spec. unfold SFeqb.
  destruct (SFcompare (Prim2SF a) (Prim2SF b)) as [[]|]; split; congruence.
Qed.

Lemma is_nan_SFnn a : PrimFloat.is_nan a = false <-> SFnn (Prim2SF a) = true.
Proof.
  unfold PrimFloat.is_nan. rewrite negb_false_iff, eqb_compare. split.
  - apply SFcompare_nan_l.
  - apply SFcompare_refl.
Qed.

Lemma ltb_irrefl a : PrimFloat.ltb a a = false.
Proof.
  apply not_true_is_false. rewrite ltb_compare. intros H.
  pose proof (SFcompare_refl _ (SFcompare_nan_l _ _ _ H)). congruence.
Qed.

Lemma ltb_trans a b c :
  PrimFloat.ltb a b = true -> PrimFloat.ltb b c = true ->
  PrimFloat.ltb a c = true.
Proof. rewrite !ltb_compare. apply SFcompare_lt_trans. Qed.

Lemma ltb_asym a b : PrimFloat.ltb a b = true -> PrimFloat.ltb b a = false.
Proof.
  intros H. apply not_true_is_false. intros H'.
  pose proof (ltb_trans _ _ _ H H') as E. rewrite ltb_irrefl in E. discriminate.
Qed.


Lemma eqb_refl a : PrimFloat.is_nan a = false -> PrimFloat.eqb a a = true.
Proof. unfold PrimFloat.is_nan. now rewrite negb_false_iff. Qed.

(** [std::min(a, b)]: returns [b] when [b < a], else [a]. *)
Definition fmin (a b : float) : float :=
  if PrimFloat.ltb b a then b else a.

(** Conversion of an [int] (or [unsigned char]) to [double]; exact on the
    range used here. *)
Definition of_Z (z : Z) : float :=
  if z <? 0 then PrimFloat.opp (PrimFloat.of_uint63 (Uint63.of_Z (- z)))
  else PrimFloat.of_uint63 (Uint63.of_Z z).

End Double.

(** ** The header's constants and node type *)

(** [#define INF 10000]  -- "infinity, a big enough number". *)
Definition INF : float := 10000%float.

(** [#define WINDOW_SIZE 70]. *)
Definition WINDOW_SIZE : Z := 70.

(** Modelled from the spec: the base class [Node] (global_planner.h is not
    among the sources).  Its fields are those the [LNode] constructor hands
    to [Node(x, y, cost, h_cost, id, pid)]: the coordinate, [g] ("cost to
    get to this node"), the heuristic, the identifier and the parent's. *)
Record Node : Type := mkNode {
  n_x : Z;
  n_y : Z;
  n_cost : float;
  n_h_cost : float;
  n_id : Z;
  n_pid : Z
}.

(** [std::multimap<double, LNodePtr>::iterator]: a position in the open
    list; [None] is [open_list_.end()]. *)
Definition iterator : Type := option positive.

(** [class LNode : public Node], with [rhs], [key] and [open_it]. *)
Record LNode : Type := mkLNode {
  l_node : Node;
  rhs : float;
  key : float;
  open_it : iterator
}.

(** The constructor [LNode(x, y, cost, h_cost, id, pid, rhs, key)]; it
    initialises the base and [rhs], [key], and leaves [open_it] at no
    position. *)
Definition LNode_ctor (x y : Z) (cost h_cost : float) (id pid : Z)
    (rhs key : float) : LNode :=
  {| l_node := mkNode x y cost h_cost id pid;
     rhs := rhs; key := key; open_it := None |}.

(** The constructor's default arguments: [x = 0, y = 0, cost = INF,
    h_cost = INF, id = 0, pid = -1, rhs = INF, key = INF]. *)
Definition LNode_default : LNode :=
  LNode_ctor 0 0 INF INF 0 (-1) INF INF.

Definition l_x (n : LNode) : Z := n_x (l_node n).
Definition l_y (n : LNode) : Z := n_y (l_node n).
Definition l_g (n : LNode) : float := n_cost (l_node n).
Definition l_pid (n : LNode) : Z := n_pid (l_node n).

Definition set_g (n : LNode) (g : float) : LNode :=
  {| l_node := {| n_x := l_x n; n_y := l_y n; n_cost := g;
                  n_h_cost := n_h_cost (l_node n); n_id := n_id (l_node n);
                  n_pid := l_pid n |};
     rhs := rhs n; key := key n; open_it := open_it n |}.

Definition set_rhs (n : LNode) (r : float) : LNode :=
  {| l_node := l_node n; rhs := r; key := key n; open_it := open_it n |}.

Definition set_key (n : LNode) (k : float) : LNode :=
  {| l_node := l_node n; rhs := rhs n; key := k; open_it := open_it n |}.

Definition set_open_it (n : LNode) (it : iterator) : LNode :=
  {| l_node := l_node n; rhs := rhs n; key := key n; open_it := it |}.

(** ** [std::multimap<double, V>]

    A node-based ordered container: entries are kept in ascending key
    order ([std::less<double>]), an insertion goes to the upper bound of
    its key's range, and every entry keeps the iterator it was given at
    insertion until it is erased. *)

Module Multimap.

Section WithValue.
Context {V : Type}.

Record entry : Type := mkEntry {
  e_it : positive;
  e_key : float;
  e_val : V
}.

Record t : Type := mkMap {
  entries : list entry;
  next_it : positive
}.

Definition empty : t := {| entries := []; next_it := 1%positive |}.


(** [m.begin()], dereferenced: the first entry, if any. *)
Definition front (m : t) : option entry := head (entries m).

(** [m.begin()] as an iterator. *)
Definition begin (m : t) : iterator := e_it <$> front m.

Fixpoint insert_entry (e : entry) (l : list entry) : list entry :=
  match l with
  | [] => [e]
  | e' :: l' =>
      if PrimFloat.ltb (e_key e) (e_key e') then e :: l
      else e' :: insert_entry e l'
  end.

(** [m.insert(std::make_pair(k, v))]: returns the container and the
    iterator to the new entry. *)
Definition insert (k : float) (v : V) (m : t) : t * positive :=
  let it := next_it m in
  ({| entries := insert_entry (mkEntry it k v) (entries m);
      next_it := Pos.succ it |}, it).

Fixpoint erase_entry (it : positive) (l : list entry) : list entry :=
  match l with
  | [] => []
  | e :: l' => if Pos.eqb (e_it e) it then l' else e :: erase_entry it l'
  end.

(** [m.erase(it)] *)
Definition erase (it : positive) (m : t) : t :=
  {| entries := erase_entry it (entries m); next_it := next_it m |}.

(** Peek and pop of the minimum: [*m.begin()] and [m.erase(m.begin())]. *)
Definition pop (m : t) : option (entry * t) :=
  match front m with
  | Some e => Some (e, erase (e_it e) m)
  | None => None
  end.

(** Ascending order under the comparator: no later key is less than an
    earlier one. *)
Definition ascending (l : list entry) : Prop :=
  StronglySorted (fun a b => PrimFloat.ltb (e_key b) (e_key a) = false) l.

Record wf (m : t) : Prop := mkWf {
  wf_sorted : ascending (entries m);
  wf_nodup : NoDup (e_it <$> entries m);
  wf_fresh : Forall (fun e => (e_it e < next_it m)%positive) (entries m)
}.

(** *** Insertion *)

Lemma insert_entry_perm e l : insert_entry e l ≡ₚ e :: l.
Proof.
  induction l as [|e' l IH]; simpl; [done|].
  destruct (PrimFloat.ltb (e_key e) (e_key e')); [done|].
  rewrite IH. apply Permutation_swap.
Qed.

Lemma elem_of_insert_entry e e0 l :
  e0 ∈ insert_entry e l <-> e0 = e \/ e0 ∈ l.
Proof. rewrite insert_entry_perm. apply elem_of_cons. Qed.

Lemma insert_entry_ascending e l :
  ascending l -> ascending (insert_entry e l).
Proof.
  unfold ascending. induction l as [|e' l IH]; simpl; intros Hs.
  - repeat constructor.
  - apply StronglySorted_inv in Hs as [Hl He'].
    destruct (PrimFloat.ltb (e_key e) (e_key e')) eqn:Hlt.
    + constructor; [by constructor|]. constructor.
      * by apply Double.ltb_asym.
      * eapply Forall_impl; [exact He'|]. intros b Hb; simpl in Hb.
        apply not_true_is_false. intros Hbe.
        pose proof (Double.ltb_trans _ _ _ Hbe Hlt). congruence.
    + constructor; [by apply IH|].
      apply Forall_forall. intros b Hb.
      apply elem_of_insert_entry in Hb as [->|Hb]; [done|].
      rewrite Forall_forall in He'. by apply He'.
Qed.

(** *** Erasure *)

Lemma erase_entry_sublist it l : erase_entry it l `sublist_of` l.
Proof.
  induction l as [|e l IH]; simpl; [done|].
  destruct (Pos.eqb (e_it e) it); [by apply sublist_cons|by apply sublist_skip].
Qed.




(** *** The container invariant is kept by every operation *)

Lemma empty_wf : wf empty.
Proof. split; simpl; [constructor|constructor|constructor]. Qed.

Lemma insert_wf k v m : wf m -> wf (insert k v m).1.
Proof.
  intros [Hs Hnd Hf]. split; simpl.
  - by apply insert_entry_ascending.
  - rewrite insert_entry_perm. simpl. apply NoDup_cons. split; [|done].
    intros Hin. apply list_elem_of_fmap in Hin as (e & Heq & He).
    rewrite Forall_forall in Hf. specialize (Hf _ He). lia.
  - rewrite insert_entry_perm. constructor; simpl; [lia|].
    eapply Forall_impl; [exact Hf|]. simpl. intros; lia.
Qed.


Lemma front_minimum m e :
  wf m -> front m = Some e ->
  forall e', e' ∈ entries m -> PrimFloat.ltb (e_key e') (e_key e) = false.
Proof.
  intros [Hs _ _]. unfold front. destruct (entries m) as [|e0 l]; [done|].
  simpl. intros [= ->] e' He'. apply elem_of_cons in He' as [->|He'].
  - apply Double.ltb_irrefl.
  - apply StronglySorted_inv in Hs as [_ Hall].
    rewrite Forall_forall in Hall. by apply Hall.
Qed.

Lemma insert_fresh k v m :
  wf m -> (insert k v m).2 ∉ (e_it <$> entries m).
Proof.
  intros [_ _ Hf] Hin. simpl in Hin.
  apply list_elem_of_fmap in Hin as (e & Heq & He).
  rewrite Forall_forall in Hf. specialize (Hf _ He). lia.
Qed.


End WithValue.

Arguments entry : clear implicits.
Arguments t : clear implicits.

End Multimap.

(** ** The planner's state *)

(** A grid cell [(x, y)]; an [LNodePtr] is the slot [map_[x][y]]. *)
Definition coord : Type := (Z * Z)%type.

Definition node_coord (n : Node) : coord := (n_x n, n_y n).

(** The data members of [class LPAStar].  The cost arrays are row-major
    [unsigned char] arrays; [last_global_costmap_] holds nothing until a
    call has stored one, the two pointers are null until a session
    exists. *)
Record LPAStar : Type := mkLPAStar {
  curr_global_costmap_ : list Z;
  last_global_costmap_ : option (list Z);
  map_ : gmap coord LNode;
  open_list_ : Multimap.t coord;
  path_ : list Node;
  expand_ : list Node;
  start_ : Node;
  goal_ : Node;
  start_ptr_ : option coord;
  goal_ptr_ : option coord
}.

Definition set_store (s : LPAStar) (m : gmap coord LNode)
    (ol : Multimap.t coord) : LPAStar :=
  {| curr_global_costmap_ := curr_global_costmap_ s;
     last_global_costmap_ := last_global_costmap_ s;
     map_ := m; open_list_ := ol;
     path_ := path_ s; expand_ := expand_ s;
     start_ := start_ s; goal_ := goal_ s;
     start_ptr_ := start_ptr_ s; goal_ptr_ := goal_ptr_ s |}.

Definition set_costs (s : LPAStar) (curr : list Z) (last : option (list Z))
    : LPAStar :=
  {| curr_global_costmap_ := curr; last_global_costmap_ := last;
     map_ := map_ s; open_list_ := open_list_ s;
     path_ := path_ s; expand_ := expand_ s;
     start_ := start_ s; goal_ := goal_ s;
     start_ptr_ := start_ptr_ s; goal_ptr_ := goal_ptr_ s |}.

Definition set_result (s : LPAStar) (path expand : list Node) : LPAStar :=
  {| curr_global_costmap_ := curr_global_costmap_ s;
     last_global_costmap_ := last_global_costmap_ s;
     map_ := map_ s; open_list_ := open_list_ s;
     path_ := path; expand_ := expand;
     start_ := start_ s; goal_ := goal_ s;
     start_ptr_ := start_ptr_ s; goal_ptr_ := goal_ptr_ s |}.

Definition set_start (s : LPAStar) (start : Node) : LPAStar :=
  {| curr_global_costmap_ := curr_global_costmap_ s;
     last_global_costmap_ := last_global_costmap_ s;
     map_ := map_ s; open_list_ := open_list_ s;
     path_ := path_ s; expand_ := expand_ s;
     start_ := start; goal_ := goal_ s;
     start_ptr_ := Some (node_coord start); goal_ptr_ := goal_ptr_ s |}.

Definition set_goal (s : LPAStar) (goal : Node) : LPAStar :=
  {| curr_global_costmap_ := curr_global_costmap_ s;
     last_global_costmap_ := last_global_costmap_ s;
     map_ := map_ s; open_list_ := open_list_ s;
     path_ := path_ s; expand_ := expand_ s;
     start_ := start_ s; goal_ := goal;
     start_ptr_ := start_ptr_ s; goal_ptr_ := Some (node_coord goal) |}.

(** Modelled from the spec: a planner object before its first [plan]
    call (the constructor is only declared) -- no node, an empty open
    list, no previous cost array, no session. *)
Definition LPAStar_new : LPAStar :=
  {| curr_global_costmap_ := []; last_global_costmap_ := None;
     map_ := ∅; open_list_ := Multimap.empty;
     path_ := []; expand_ := [];
     start_ := l_node LNode_default; goal_ := l_node LNode_default;
     start_ptr_ := None; goal_ptr_ := None |}.

(** Modelled from the spec: the "capped addition, not raw summation" of
    section 4.1 (the function that computes it is not in the header).  The
    result is [INF] as soon as one operand has reached [INF], and else the
    sum, cut at [INF]. *)
Definition cap_add (a b : float) : float :=
  if PrimFloat.leb INF a || PrimFloat.leb INF b then INF
  else let s := PrimFloat.add a b in
       if PrimFloat.ltb s INF then s else INF.

(** Modelled from the spec: the test "g is infinite" of sections 4.6 and
    4.7 (the comparison itself is not in the header) -- the cost has
    reached the sentinel. *)
Definition is_inf (c : float) : bool := PrimFloat.leb INF c.

(** ** The member functions

    Only their declarations are in the header; each is modelled from the
    spec and says so.  What the spec leaves open is a variable of the
    section: the grid extents, the heuristic, the lethal marker of the
    cost array, the base movement costs and the step bound of the path
    walk. *)

Section Planner.

(** [nx], [ny]: the constructor's "pixel number in costmap x/y direction". *)
Variables nx ny : Z.
(** [getH(n1, n2)]: "heuristics between n1 and n2", an "admissible
    distance estimate" that the spec does not fix. *)
Variable getH : coord -> coord -> float.
(** The raw cost values that mark a cell impassable. *)
Variable lethal : Z -> bool.
(** Base movement cost of a straight and of a diagonal move. *)
Variables straight_cost diagonal_cost : float.
(** Bound on the number of steps of the path walk. *)
Variable max_steps : nat.

(** Modelled from the spec: the row-major index of a cell, which is also
    the node identifier "derived from coordinate" (grid2Index of the
    absent base class). *)
Definition grid2Index (c : coord) : Z := c.1 + nx * c.2.

(** Modelled from the spec: "coordinates outside grid extents" of section
    7, negated. *)
Definition in_bounds (c : coord) : bool :=
  (0 <=? c.1) && (c.1 <? nx) && (0 <=? c.2) && (c.2 <? ny).

(** Modelled from the spec: the raw traversal cost of a cell in a
    row-major cost array (section 6). *)
Definition cost_at (costs : list Z) (c : coord) : Z :=
  default 0 (costs !! Z.to_nat (grid2Index c)).

(** Modelled from the spec: the cell's "raw cost marks it impassable". *)
Definition blocking (costs : list Z) (c : coord) : bool :=
  lethal (cost_at costs c).

(** The move changes both coordinates. *)
Definition is_diagonal (a b : coord) : bool :=
  negb (a.1 =? b.1) && negb (a.2 =? b.2).

(** Modelled from the spec: [isBlocked(a, b)] of section 4.1 -- the move
    between two adjacent cells crosses an impassable cell, or it is
    diagonal and one of the two flanking orthogonal cells is blocking
    ("a check that both flanking orthogonal cells are not blocking"). *)
Definition isBlocked (costs : list Z) (a b : coord) : bool :=
  blocking costs a || blocking costs b ||
  (is_diagonal a b &&
   (blocking costs (a.1, b.2) || blocking costs (b.1, a.2))).


(** Modelled from the spec: the "base movement cost (straight vs
    diagonal)" of section 4.1. *)
Definition move_cost (a b : coord) : float :=
  if is_diagonal a b then diagonal_cost else straight_cost.

(** Modelled from the spec: [edgeCost(a, b)] of section 4.1 -- the
    sentinel on a blocked move, else the base movement cost combined with
    the destination's raw traversal cost by capped addition. *)
Definition edgeCost (costs : list Z) (a b : coord) : float :=
  if isBlocked costs a b then INF
  else cap_add (move_cost a b) (Double.of_Z (cost_at costs b)).

(** Modelled from the spec: [LPAStar::getCost(n1, n2)], "return INF if
    collision" (header), on the current cost array. *)
Definition getCost (s : LPAStar) (n1 n2 : coord) : float :=
  edgeCost (curr_global_costmap_ s) n1 n2.

(** Modelled from the spec: [neighbors(u)] of section 4.1 -- the up to
    eight grid-adjacent cells within the grid bounds. *)
Definition neighbours (u : coord) : list coord :=
  filter (fun c => in_bounds c = true)
    ((fun d : Z * Z => (u.1 + d.1, u.2 + d.2)) <$>
     [(-1, -1); (-1, 0); (-1, 1); (0, -1); (0, 1); (1, -1); (1, 0); (1, 1)]).

(** Modelled from the spec: the node a slot gets when it is first
    visited -- the constructor's defaults [g = rhs = INF], at the slot's
    coordinate and identifier. *)
Definition LNode_at (c : coord) : LNode :=
  LNode_ctor c.1 c.2 INF INF (grid2Index c) (-1) INF INF.

(** The node of a slot, populated or not yet. *)
Definition get_node (m : gmap coord LNode) (c : coord) : LNode :=
  default (LNode_at c) (m !! c).

(** Modelled from the spec: [nodeAt(coord)] of section 4.2 -- "returns the
    SearchNode for coord, creating it with default (g = rhs = infinity)
    on first access". *)
Definition nodeAt (m : gmap coord LNode) (c : coord)
    : LNode * gmap coord LNode :=
  match m !! c with
  | Some n => (n, m)
  | None => (LNode_at c, <[c := LNode_at c]> m)
  end.

(** Modelled from the spec: [LPAStar::getNeighbours(u, neighbours)] -- the
    neighbour cells, their slots populated on this first reference. *)
Definition materialize (cs : list coord) (m : gmap coord LNode)
    : gmap coord LNode :=
  foldl (fun m c => (nodeAt m c).2) m cs.

(** Modelled from the spec: [reset()] of section 4.2 -- "discards all
    nodes and the open list". *)
Definition reset (s : LPAStar) : LPAStar :=
  set_store s ∅ Multimap.empty.

(** The session's goal and start cells, from [goal_] and [start_]. *)
Definition goal_coord (s : LPAStar) : coord := node_coord (goal_ s).

Definition is_start (s : LPAStar) (u : coord) : bool :=
  bool_decide (u = node_coord (start_ s)).

(** Modelled from the spec: [LPAStar::calculateKey(s)], the scalar
    [key(u) = min(g(u), rhs(u)) + heuristic(u, goal)] of section 4.4. *)
Definition calculateKey (s : LPAStar) (u : coord) (n : LNode) : float :=
  PrimFloat.add (Double.fmin (l_g n) (rhs n)) (getH u (goal_coord s)).

(** Modelled from the spec: the value a predecessor [p] offers to [u] in
    sections 4.4 and 4.6, [g(p) + edgeCost(p, u)]; the predecessors of a
    cell are its neighbours. *)
Definition candidate (s : LPAStar) (m : gmap coord LNode) (u p : coord)
    : float :=
  PrimFloat.add (l_g (get_node m p)) (getCost s p u).

(** The running minimum: keep [r] unless the candidate is strictly
    smaller. *)
Definition min_step (s : LPAStar) (m : gmap coord LNode) (u : coord)
    (r : float) (p : coord) : float :=
  if PrimFloat.ltb (candidate s m u p) r then candidate s m u p else r.

(** Modelled from the spec: step 1 of section 4.4, [min over all
    predecessors p of (g(p) + edgeCost(p, u))], "or infinity if no
    predecessor yields a finite value". *)
Definition min_rhs (s : LPAStar) (m : gmap coord LNode) (u : coord) : float :=
  foldl (min_step s m u) INF (neighbours u).

(** Modelled from the spec: [LPAStar::updateVertex(u)], section 4.4.
    "The start node's rhs is pinned to 0 always" is read as: the call
    sets [rhs] to 0 at the start node. *)
Definition updateVertex (s : LPAStar) (u : coord) : LPAStar :=
  let m := materialize (u :: neighbours u) (map_ s) in
  let n := get_node m u in
  (* 1. rhs: pinned to 0 at the start node, recomputed elsewhere *)
  let r := if is_start s u then 0%float else min_rhs s m u in
  (* 2. remove u from the open list if it is there *)
  let ol := match open_it n with
            | Some it => Multimap.erase it (open_list_ s)
            | None => open_list_ s
            end in
  let n1 := set_open_it (set_rhs n r) None in
  (* 3. queue u again iff it is inconsistent *)
  if PrimFloat.eqb (l_g n1) (rhs n1) then set_store s (<[u := n1]> m) ol
  else
    let k := calculateKey s u n1 in
    let '(ol', it) := Multimap.insert k u ol in
    set_store s (<[u := set_open_it (set_key n1 k) (Some it)]> m) ol'.

(** Modelled from the spec: the loop condition of section 4.5 -- the open
    list is non-empty and the minimum key is smaller than [key(goal)] or
    the goal is inconsistent. *)
Definition loop_guard (s : LPAStar) : bool :=
  match Multimap.front (open_list_ s) with
  | None => false
  | Some e =>
      let gl := get_node (map_ s) (goal_coord s) in
      PrimFloat.ltb (Multimap.e_key e) (calculateKey s (goal_coord s) gl)
      || negb (PrimFloat.eqb (rhs gl) (l_g gl))
  end.

(** Modelled from the spec: one iteration of section 4.5 -- pop the
    minimum-key node and settle it. *)
Definition expand_vertex (s : LPAStar) : LPAStar :=
  match Multimap.pop (open_list_ s) with
  | None => s
  | Some (e, ol) =>
      let u := Multimap.e_val e in
      let n := set_open_it (get_node (map_ s) u) None in
      if PrimFloat.ltb (rhs n) (l_g n) then
        (* overconsistent *)
        foldl updateVertex
          (set_store s (<[u := set_g n (rhs n)]> (map_ s)) ol)
          (neighbours u)
      else
        (* underconsistent *)
        foldl updateVertex
          (set_store s (<[u := set_g n INF]> (map_ s)) ol)
          (u :: neighbours u)
  end.

(** Modelled from the spec: [LPAStar::computeShortestPath()], section 4.5.
    The loop has no bound of its own; [fuel] bounds the iterations of the
    model, and [None] means the bound was reached. *)
Fixpoint computeShortestPath (fuel : nat) (s : LPAStar) : option LPAStar :=
  if loop_guard s then
    match fuel with
    | O => None
    | S fuel' => computeShortestPath fuel' (expand_vertex s)
    end
  else Some s.

(** Modelled from the spec: "the neighbor p minimizing
    g(p) + edgeCost(p, current)" of section 4.6; the first one on ties. *)
Definition best_step (s : LPAStar) (cur : coord) (best : option coord)
    (p : coord) : option coord :=
  match best with
  | None => Some p
  | Some b =>
      if PrimFloat.ltb (candidate s (map_ s) cur p)
                       (candidate s (map_ s) cur b)
      then Some p else Some b
  end.

Definition best_pred (s : LPAStar) (cur : coord) : option coord :=
  foldl (best_step s cur) None (neighbours cur).

(** Modelled from the spec: the backward walk of section 4.6 from [cur]
    towards [start], each visited cell prepended to the path and recorded
    as visited; it gives up after [steps] steps.  Returns the path found
    (start first), if any, and the cells visited. *)
Fixpoint walk (steps : nat) (s : LPAStar) (start cur : coord)
    (path visited : list coord) : option (list coord) * list coord :=
  if bool_decide (cur = start) then (Some (cur :: path), visited ++ [cur])
  else
    match steps with
    | O => (None, visited ++ [cur])
    | S steps' =>
        match best_pred s cur with
        | None => (None, visited ++ [cur])
        | Some p => walk steps' s start p (cur :: path) (visited ++ [cur])
        end
    end.

(** The [Node] part of a cell's node, as stored in [path_] and
    [expand_]. *)
Definition node_of (s : LPAStar) (c : coord) : Node :=
  l_node (get_node (map_ s) c).

(** Modelled from the spec: [LPAStar::extractPath(start, goal)], section
    4.6.  The function returns nothing; a failed extraction leaves
    [path_] empty.  The visited cells are appended to [expand_]: this is
    the only place where the spec records expanded nodes. *)
Definition extractPath (s : LPAStar) (start goal : Node) : LPAStar :=
  if is_inf (l_g (get_node (map_ s) (node_coord goal))) then
    set_result s [] (expand_ s)
  else
    let '(r, visited) :=
      walk max_steps s (node_coord start) (node_coord goal) [] [] in
    set_result s (node_of s <$> default [] r)
                 (expand_ s ++ (node_of s <$> visited)).

(** The cells of the grid, and all ordered pairs of adjacent cells. *)
Definition cells : list coord :=
  x ← seqZ 0 nx; (fun y => (x, y)) <$> seqZ 0 ny.

Definition edges : list (coord * coord) :=
  a ← cells; (fun b => (a, b)) <$> neighbours a.

(** Modelled from the spec: step 2 of section 4.7 -- [updateVertex] on
    both endpoints of every edge whose traversability differs between the
    previous and the current cost array. *)
Definition repair_edge (old : list Z) (s : LPAStar) (e : coord * coord)
    : LPAStar :=
  if eqb (isBlocked old e.1 e.2) (isBlocked (curr_global_costmap_ s) e.1 e.2)
  then s
  else updateVertex (updateVertex s e.1) e.2.

Definition repair_changed (s : LPAStar) : LPAStar :=
  match last_global_costmap_ s with
  | None => s
  | Some old => foldl (repair_edge old) s edges
  end.

(** Modelled from the spec: step 1 of section 4.7 -- a new goal starts a
    fresh session, otherwise the nodes are kept.  The seed "via
    updateVertex-equivalent initialization" is the call
    [updateVertex(start)]: it pins [rhs(start)] to 0 and queues the start
    node, whose [g] becomes 0 when the loop expands it. *)
Definition resolve_session (s : LPAStar) (start goal : Node) : LPAStar :=
  if bool_decide (goal_ptr_ s = Some (node_coord goal)) then set_start s start
  else updateVertex (set_goal (set_start (reset s) start) goal)
                    (node_coord start).

(** The value [plan] returns, with the [expand] out-parameter. *)
Record plan_result : Type := mkResult {
  found : bool;
  path : list Node;
  expand : list Node
}.

(** Modelled from the spec: [LPAStar::plan(costs, start, goal, expand)],
    sections 4.7 and 7: the bounds check, then steps 1 to 5.  The path and
    the expanded list are those of this run.  [fuel] bounds the
    shortest-path loop. *)
Definition plan (fuel : nat) (s : LPAStar) (costs : list Z)
    (start goal : Node) : option (LPAStar * plan_result) :=
  if negb (in_bounds (node_coord start) && in_bounds (node_coord goal)) then
    Some (s, mkResult false [] [])
  else
    let s0 := set_result (set_costs s costs (last_global_costmap_ s)) [] [] in
    let s1 := resolve_session s0 start goal in
    let s2 := repair_changed s1 in
    match computeShortestPath fuel s2 with
    | None => None
    | Some s3 =>
        let s4 := if is_inf (l_g (get_node (map_ s3) (node_coord goal)))
                  then s3 else extractPath s3 start goal in
        let s5 := set_costs s4 costs (Some costs) in
        Some (s5, mkResult (negb (bool_decide (path_ s5 = [])))
                           (path_ s5) (expand_ s5))
    end.

(** ** Facts about the grid store *)

Lemma nodeAt_fst m c : (nodeAt m c).1 = get_node m c.
Proof. unfold nodeAt, get_node. by destruct (m !! c). Qed.




Lemma nodeAt_populates m c : (nodeAt m c).2 !! c = Some (get_node m c).
Proof.
  unfold nodeAt, get_node. destruct (m !! c) eqn:E; simpl; [done|].
  by rewrite lookup_insert_eq.
Qed.



(** ** Saturating addition *)




(** ** The running minimum of [updateVertex] *)

Section RunningMin.
Variable f : coord -> float.








End RunningMin.


(** ** The open list and the nodes' position tokens *)










(** ** [updateVertex] *)


Lemma updateVertex_store s u :
  updateVertex s u =
  set_store s (map_ (updateVertex s u)) (open_list_ (updateVertex s u)).
Proof.
  unfold updateVertex. cbv zeta.
  destruct (PrimFloat.eqb _ _); [reflexivity|].
  destruct (Multimap.insert _ _ _). reflexivity.
Qed.


(** ** The shortest-path loop *)





Lemma foldl_updateVertex_store l s :
  foldl updateVertex s l =
  set_store s (map_ (foldl updateVertex s l))
              (open_list_ (foldl updateVertex s l)).
Proof.
  revert s. induction l as [|u l IH]; intros s; simpl.
  - by destruct s.
  - rewrite IH at 1. rewrite (updateVertex_store s u) at 1. reflexivity.
Qed.








Lemma expand_vertex_store s :
  expand_vertex s =
  set_store s (map_ (expand_vertex s)) (open_list_ (expand_vertex s)).
Proof.
  unfold expand_vertex. destruct (Multimap.pop (open_list_ s)) as [[e ol]|].
  - destruct (PrimFloat.ltb _ _); rewrite foldl_updateVertex_store at 1;
      reflexivity.
  - by destruct s.
Qed.

Lemma computeShortestPath_store fuel s s' :
  computeShortestPath fuel s = Some s' ->
  s' = set_store s (map_ s') (open_list_ s').
Proof.
  revert s. induction fuel as [|fuel IH]; intros s; simpl;
    destruct (loop_guard s); try discriminate.
  - intros [= <-]. by destruct s.
  - intros H. apply IH in H. rewrite H at 1.
    rewrite (expand_vertex_store s) at 1. reflexivity.
  - intros [= <-]. by destruct s.
Qed.

Lemma computeShortestPath_guard fuel s s' :
  computeShortestPath fuel s = Some s' -> loop_guard s' = false.
Proof.
  revert s. induction fuel as [|fuel IH]; intros s; simpl;
    destruct (loop_guard s) eqn:Hg; try discriminate.
  - by intros [= <-].
  - apply IH.
  - by intros [= <-].
Qed.

Lemma computeShortestPath_idle fuel s :
  loop_guard s = false -> computeShortestPath fuel s = Some s.
Proof. intros H. destruct fuel; simpl; by rewrite H. Qed.


(** ** The path walk *)

Section BestPred.
Variables (s : LPAStar) (cur : coord).




End BestPred.




Lemma best_pred_ext s t cur :
  map_ s = map_ t -> curr_global_costmap_ s = curr_global_costmap_ t ->
  best_pred s cur = best_pred t cur.
Proof.
  intros Hm Hc. unfold best_pred. generalize (@None coord).
  induction (neighbours cur) as [|q l IH]; intros b; simpl; [done|].
  replace (best_step t cur b q) with (best_step s cur b q); [apply IH|].
  unfold best_step, candidate, getCost. by rewrite Hm, Hc.
Qed.

Lemma walk_ext steps s t start cur acc visited :
  map_ s = map_ t -> curr_global_costmap_ s = curr_global_costmap_ t ->
  walk steps s start cur acc visited = walk steps t start cur acc visited.
Proof.
  intros Hm Hc. revert cur acc visited.
  induction steps as [|steps IH]; intros cur acc visited; simpl; [done|].
  rewrite (best_pred_ext s t cur Hm Hc).
  destruct (bool_decide (cur = start)); [done|].
  destruct (best_pred t cur); [apply IH|done].
Qed.

(** ** [plan] *)

(** What step 4 of [plan] leaves in [path_] and [expand_]. *)
Definition extraction (s : LPAStar) (start goal : Node)
    : list Node * list Node :=
  if is_inf (l_g (get_node (map_ s) (node_coord goal))) then ([], [])
  else
    let '(r, visited) :=
      walk max_steps s (node_coord start) (node_coord goal) [] [] in
    (node_of s <$> default [] r, node_of s <$> visited).

Lemma repair_edge_store old s e :
  repair_edge old s e =
  set_store s (map_ (repair_edge old s e)) (open_list_ (repair_edge old s e)).
Proof.
  unfold repair_edge. destruct (eqb _ _); [by destruct s|].
  rewrite updateVertex_store at 1.
  rewrite (updateVertex_store s e.1) at 1. reflexivity.
Qed.

Lemma repair_changed_store s :
  repair_changed s =
  set_store s (map_ (repair_changed s)) (open_list_ (repair_changed s)).
Proof.
  unfold repair_changed. destruct (last_global_costmap_ s) as [old|];
    [|by destruct s].
  generalize edges. intros l. revert s.
  induction l as [|e l IH]; intros s; simpl; [by destruct s|].
  rewrite IH at 1. rewrite (repair_edge_store old s e) at 1. reflexivity.
Qed.

Lemma repair_changed_idle s :
  last_global_costmap_ s = Some (curr_global_costmap_ s) ->
  repair_changed s = s.
Proof.
  unfold repair_changed. intros ->. induction edges as [|e l IH]; simpl;
    [done|].
  unfold repair_edge at 2. by rewrite eqb_reflx.
Qed.

Lemma resolve_session_shape s start goal :
  exists m ol g,
    resolve_session s start goal =
    mkLPAStar (curr_global_costmap_ s) (last_global_costmap_ s) m ol
      (path_ s) (expand_ s) start g
      (Some (node_coord start)) (Some (node_coord goal)).
Proof.
  unfold resolve_session. case_bool_decide as Hg.
  - exists (map_ s), (open_list_ s), (goal_ s). unfold set_start.
    by rewrite Hg.
  - rewrite updateVertex_store. eexists _, _, _. reflexivity.
Qed.

(** The state in which the shortest-path loop of [plan] stops. *)
Lemma plan_loop_shape fuel s costs start goal s3 :
  computeShortestPath fuel
    (repair_changed
       (resolve_session
          (set_result (set_costs s costs (last_global_costmap_ s)) [] [])
          start goal)) = Some s3 ->
  exists m ol g,
    s3 = mkLPAStar costs (last_global_costmap_ s) m ol [] [] start g
           (Some (node_coord start)) (Some (node_coord goal)).
Proof.
  intros H. apply computeShortestPath_store in H.
  rewrite repair_changed_store in H.
  destruct (resolve_session_shape
              (set_result (set_costs s costs (last_global_costmap_ s)) [] [])
              start goal) as (m & ol & g & E).
  rewrite E in H. simpl in H. eexists _, _, _. exact H.
Qed.

Lemma loop_guard_ext s t :
  map_ s = map_ t -> open_list_ s = open_list_ t -> goal_ s = goal_ t ->
  loop_guard s = loop_guard t.
Proof.
  intros Hm Ho Hg. unfold loop_guard, calculateKey, goal_coord.
  by rewrite Hm, Ho, Hg.
Qed.

Lemma extractPath_extraction s start goal :
  expand_ s = [] ->
  extractPath s start goal =
  set_result s (extraction s start goal).1 (extraction s start goal).2.
Proof.
  intros He. unfold extractPath, extraction. rewrite He.
  destruct (is_inf _); [done|].
  by destruct (walk max_steps s (node_coord start) (node_coord goal) [] []).
Qed.

Lemma extraction_ext s t start goal :
  map_ s = map_ t -> curr_global_costmap_ s = curr_global_costmap_ t ->
  extraction s start goal = extraction t start goal.
Proof.
  intros Hm Hc. unfold extraction, node_of.
  rewrite (walk_ext _ s t _ _ _ _ Hm Hc). by rewrite Hm.
Qed.

(** [plan] on in-bounds input, in one piece: the loop's final state [s3]
    decides the result. *)
Lemma plan_in_bounds fuel s costs start goal s' r :
  in_bounds (node_coord start) && in_bounds (node_coord goal) = true ->
  plan fuel s costs start goal = Some (s', r) ->
  exists m ol g,
    let s3 := mkLPAStar costs (last_global_costmap_ s) m ol [] [] start g
                (Some (node_coord start)) (Some (node_coord goal)) in
    let pe := extraction s3 start goal in
    loop_guard s3 = false /\
    s' = mkLPAStar costs (Some costs) m ol pe.1 pe.2 start g
           (Some (node_coord start)) (Some (node_coord goal)) /\
    r = mkResult (negb (bool_decide (pe.1 = []))) pe.1 pe.2.
Proof.
  intros Hb. unfold plan. rewrite Hb. simpl.
  destruct (computeShortestPath _ _) as [s3|] eqn:Hcsp; [|discriminate].
  pose proof (computeShortestPath_guard _ _ _ Hcsp) as Hguard.
  destruct (plan_loop_shape _ _ _ _ _ _ Hcsp) as (m & ol & g & ->).
  intros [= <- <-]. exists m, ol, g. split; [exact Hguard|].
  unfold extraction. simpl.
  destruct (is_inf _) eqn:Hinf; simpl; [done|].
  rewrite extractPath_extraction by done. unfold extraction. simpl.
  rewrite Hinf. done.
Qed.

(** ** The open-list invariant along [plan] *)










(** ** The claims about the planner *)

(** C9.  A node built with the constructor's default arguments has
    cost = INF, rhs = INF, key = INF and pid = -1; the node created on the
    first access to a grid-store slot is such a node at the slot's
    coordinate: g = INF, rhs = INF, key = INF, no parent, and it is the
    node the slot then holds. *)
Theorem LNode_default_is_infinite :
  (l_g LNode_default = INF /\ rhs LNode_default = INF /\
   key LNode_default = INF /\ l_pid LNode_default = -1) /\
  forall (m : gmap coord LNode) (c : coord),
    m !! c = None ->
    (nodeAt m c).2 !! c = Some (nodeAt m c).1 /\
    l_g (nodeAt m c).1 = INF /\ rhs (nodeAt m c).1 = INF /\
    key (nodeAt m c).1 = INF /\ l_pid (nodeAt m c).1 = -1 /\
    (l_x (nodeAt m c).1, l_y (nodeAt m c).1) = c.
Proof.
  split; [by repeat split|]. intros m c Hc.
  rewrite nodeAt_populates, nodeAt_fst. unfold get_node. rewrite Hc. simpl.
  repeat split. by destruct c.
Qed.



(** The loop of section 4.5 in the spec's words, to compare with
    [loop_guard] and [expand_vertex]. *)















(** C5.  If [plan] returns on a cost array, start and goal, the next
    [plan] call with the same cost array, start and goal returns the same
    [found] flag, the same path and the same expanded-node sequence, for
    any loop bound, and leaves the session as it was. *)
Theorem plan_rerun_identical (fuel fuel' : nat) (s s1 : LPAStar)
    (costs : list Z) (start goal : Node) (r1 : plan_result) :
  plan fuel s costs start goal = Some (s1, r1) ->
  plan fuel' s1 costs start goal = Some (s1, r1).
Proof.
  intros Hplan.
  destruct (in_bounds (node_coord start) && in_bounds (node_coord goal))
    eqn:Hb.
  2: { unfold plan in *. rewrite Hb in *. simpl in *.
       by injection Hplan as <- <-. }
  destruct (plan_in_bounds _ _ _ _ _ _ _ Hb Hplan)
    as (m & ol & g & Hguard & -> & ->).
  set (s3 := mkLPAStar costs (last_global_costmap_ s) m ol [] [] start g
               (Some (node_coord start)) (Some (node_coord goal))) in *.
  unfold plan. rewrite Hb. simpl.
  unfold resolve_session. simpl. rewrite bool_decide_eq_true_2 by done.
  unfold set_start. simpl.
  rewrite repair_changed_idle by done.
  set (t3 := mkLPAStar costs (Some costs) m ol [] [] start g
               (Some (node_coord start)) (Some (node_coord goal))).
  assert (Hg3 : loop_guard t3 = false)
    by (by rewrite (loop_guard_ext t3 s3)).
  rewrite (computeShortestPath_idle _ _ Hg3).
  assert (Hext : extraction s3 start goal = extraction t3 start goal)
    by (by apply extraction_ext).
  rewrite Hext. simpl.
  destruct (is_inf (l_g (get_node m (node_coord goal)))) eqn:Hinf.
  - unfold extraction. simpl. rewrite Hinf. done.
  - rewrite extractPath_extraction by done. done.
Qed.


End Planner.

(** ** The open list as a priority queue *)


(** ** The sentinel *)

(** C10.  [INF] is the finite double 10000, below the true infinity, and
    it is the default of [g], [rhs] and [key].  A node whose cost is
    exactly 10000 has the [g] of a node never reached, and no comparison
    with the sentinel tells them apart: [g == INF] and [g >= INF] hold,
    [g < INF] fails.  The sum of two sentinels is the finite double 20000,
    above the sentinel. *)
Theorem INF_is_finite_sentinel :
  INF = 10000%float /\
  PrimFloat.is_infinity INF = false /\ PrimFloat.is_nan INF = false /\
  PrimFloat.ltb INF PrimFloat.infinity = true /\
  (l_g LNode_default = INF /\ rhs LNode_default = INF /\
   key LNode_default = INF) /\
  (forall n : LNode,
     l_g n = 10000%float ->
     l_g n = l_g LNode_default /\
     PrimFloat.eqb (l_g n) INF = true /\
     PrimFloat.leb INF (l_g n) = true /\
     PrimFloat.ltb (l_g n) INF = false) /\
  PrimFloat.add INF INF = 20000%float /\
  PrimFloat.is_infinity (PrimFloat.add INF INF) = false /\
  PrimFloat.is_nan (PrimFloat.add INF INF) = false /\
  PrimFloat.ltb INF (PrimFloat.add INF INF) = true.
Proof.
  split; [reflexivity|]. split; [reflexivity|]. split; [reflexivity|].
  split; [reflexivity|]. split; [by repeat split|].
  split; [|by repeat split].
  intros n ->. by repeat split.
Qed.

(** ** Concrete sessions *)

Module Run.

(** The Euclidean distance between two cells. *)
Definition euclid (a b : coord) : float :=
  PrimFloat.sqrt
    (Double.of_Z ((a.1 - b.1) * (a.1 - b.1) + (a.2 - b.2) * (a.2 - b.2))).

(** Raw costs from 253 on are impassable. *)
Definition lethal (c : Z) : bool := 253 <=? c.

(** Base movement costs: 1 for a straight move, the square root of 2 for
    a diagonal one. *)
Definition straight : float := 1%float.
Definition diagonal : float := PrimFloat.sqrt 2.

Definition cell (x y : Z) : Node :=
  l_node (LNode_ctor x y INF INF 0 (-1) INF INF).

Definition state_of (r : option (LPAStar * plan_result)) : LPAStar :=
  match r with Some (s, _) => s | None => LPAStar_new end.

Definition result_of (r : option (LPAStar * plan_result)) : plan_result :=
  match r with Some (_, r) => r | None => mkResult false [] [] end.


(** *** A corridor of four cells, start at the left end, goal at the
    right end *)

Module Corridor.

Definition nx : Z := 4.
Definition ny : Z := 1.
Definition max_steps : nat := 8.
Definition start : Node := cell 0 0.
Definition goal : Node := cell 3 0.

(** All cells free, then cell (1, 0) blocked. *)
Definition free : list Z := [0; 0; 0; 0].
Definition blocked : list Z := [0; 254; 0; 0].



(** The first call, on the free corridor; the second, after the block. *)
Definition first : option (LPAStar * plan_result) :=
  plan nx ny euclid lethal straight diagonal max_steps 20
    LPAStar_new free start goal.

Definition second : option (LPAStar * plan_result) :=
  plan nx ny euclid lethal straight diagonal max_steps 20
    (state_of first) blocked start goal.


End Corridor.

(** *** A ring of 21 x 4 cells

    The start (1, 1) and the cell (2, 2) are diagonal neighbours whose two
    flanking cells (2, 1) and (1, 2) are walls.  A corridor of raw cost
    249 leads from the start along row 0, up column 20 and back along row
    2 to (2, 2); the goal (2, 3) is next to it. *)

Module Ring.

Definition nx : Z := 21.
Definition ny : Z := 4.
Definition max_steps : nat := 64.
Definition start : Node := cell 1 1.
Definition goal : Node := cell 2 3.

Definition row0 : list Z := [254; 0] ++ replicate 19 249.
Definition row1 : list Z := [254; 0] ++ replicate 18 254 ++ [249].
Definition row2 (c : Z) : list Z := [254; 254; 249; c] ++ replicate 17 249.
Definition row3 : list Z := [254; 254; 0] ++ replicate 18 254.

(** The ring open, then cut at (3, 2). *)
Definition open : list Z := row0 ++ row1 ++ row2 249 ++ row3.
Definition cut : list Z := row0 ++ row1 ++ row2 254 ++ row3.

Definition first : option (LPAStar * plan_result) :=
  plan nx ny euclid lethal straight diagonal max_steps 200
    LPAStar_new open start goal.

Definition second : option (LPAStar * plan_result) :=
  plan nx ny euclid lethal straight diagonal max_steps 200
    (state_of first) cut start goal.

End Ring.

(** *** A corridor of 41 cells whose true cost is exactly the sentinel *)

Module Long.

Definition nx : Z := 41.
Definition ny : Z := 1.
Definition max_steps : nat := 64.
Definition start : Node := cell 0 0.
Definition goal : Node := cell 40 0.
Definition costs : list Z := 0 :: replicate 40 249.

Definition first : option (LPAStar * plan_result) :=
  plan nx ny euclid lethal straight diagonal max_steps 200
    LPAStar_new costs start goal.

End Long.

End Run.

(** ** The claims on the concrete sessions *)

Section Runs.
Import Run.


Lemma corridor_second_returns :
  plan Corridor.nx Corridor.ny euclid lethal straight diagonal
    Corridor.max_steps 20 (state_of Corridor.first) Corridor.blocked
    Corridor.start Corridor.goal =
  Some (state_of Corridor.second, result_of Corridor.second).
Proof. vm_compute. reflexivity. Qed.










(** The second call on the blocked corridor, repeated. *)
Lemma plan_rerun_identical_witness :
  plan Corridor.nx Corridor.ny euclid lethal straight diagonal
    Corridor.max_steps 20 (state_of Corridor.first) Corridor.blocked
    Corridor.start Corridor.goal =
    Some (state_of Corridor.second, result_of Corridor.second) /\
  plan Corridor.nx Corridor.ny euclid lethal straight diagonal
    Corridor.max_steps 0 (state_of Corridor.second) Corridor.blocked
    Corridor.start Corridor.goal =
    Some (state_of Corridor.second, result_of Corridor.second).
Proof.
  split; [exact corridor_second_returns|].
  exact (plan_rerun_identical Corridor.nx Corridor.ny euclid lethal straight
           diagonal Corridor.max_steps 20 0 (state_of Corridor.first)
           (state_of Corridor.second) Corridor.blocked Corridor.start
           Corridor.goal (result_of Corridor.second) corridor_second_returns).
Defined.






(** A reachable goal at true cost 10000: 40 moves of cost 1 + 249 along a
    free corridor.  The search leaves g(goal) at the sentinel and [plan]
    reports failure, as for an unreachable goal. *)
Lemma sentinel_hides_reachable_goal :
  plan Long.nx Long.ny euclid lethal straight diagonal Long.max_steps 200
    LPAStar_new Long.costs Long.start Long.goal =
    Some (state_of Long.first, result_of Long.first) /\
  Forall (fun c => lethal c = false) Long.costs /\
  l_g (get_node Long.nx (map_ (state_of Long.first)) (39, 0)) = 9750%float /\
  l_g (get_node Long.nx (map_ (state_of Long.first)) (40, 0)) = INF /\
  result_of Long.first = mkResult false [] [].
Proof.
  split; [vm_compute; reflexivity|]. split.
  { apply Forall_forall. intros c Hc. unfold Long.costs in Hc.
    apply elem_of_cons in Hc as [->|Hc]; [done|].
    by apply elem_of_replicate in Hc as [-> _]. }
  repeat split; vm_compute; reflexivity.
Qed.

End Runs.

(** ** The order of [double] beyond [<] *)

Module DoubleOrder.
Import Double.

Lemma SFcompare_opp a b c :
  SFcompare a b = Some c -> SFcompare b a = Some (CompOpp c).
Proof.
  destruct a as [s1|s1| |s1 m1 e1], b as [s2|s2| |s2 m2 e2]; intros H;
    simpl in H; try discriminate; injection H as <-; sf_crush.
Qed.

Lemma SFcompare_eq_l a b c y :
  SFcompare a b = Some Eq -> SFcompare b c = Some y -> SFcompare a c = Some y.
Proof.
  destruct y, a as [s1|s1| |s1 m1 e1], b as [s2|s2| |s2 m2 e2],
    c as [s3|s3| |s3 m3 e3]; intros H1 H2; sf_crush.
Qed.

Lemma SFcompare_total a b :
  SFnn a = true -> SFnn b = true -> is_Some (SFcompare a b).
Proof. destruct a, b; simpl; intros; try discriminate; eauto. Qed.

Lemma eqb_sym a b : PrimFloat.eqb a b = true -> PrimFloat.eqb b a = true.
Proof. rewrite !eqb_compare. intros H. by apply SFcompare_opp in H. Qed.

Lemma eqb_trans a b c :
  PrimFloat.eqb a b = true -> PrimFloat.eqb b c = true ->
  PrimFloat.eqb a c = true.
Proof. rewrite !eqb_compare. apply SFcompare_eq_l. Qed.

Lemma eqb_ltb a b c :
  PrimFloat.eqb a b = true -> PrimFloat.ltb b c = true ->
  PrimFloat.ltb a c = true.
Proof. rewrite eqb_compare, !ltb_compare. apply SFcompare_eq_l. Qed.

Lemma leb_compare a b :
  PrimFloat.leb a b = true <->
  SFcompare (Prim2SF a) (Prim2SF b) = Some Lt \/
  SFcompare (Prim2SF a) (Prim2SF b) = Some Eq.
Proof.
  rewrite FloatAxioms.leb_spec. unfold SFleb.
  destruct (SFcompare (Prim2SF a) (Prim2SF b)) as [[]|]; split;
    intros; try discriminate; auto; by destruct H.
Qed.

(** On numbers, [!(b < a)] is [a <= b]. *)
Lemma not_ltb_leb a b :
  PrimFloat.is_nan a = false -> PrimFloat.is_nan b = false ->
  PrimFloat.ltb b a = false -> PrimFloat.leb a b = true.
Proof.
  rewrite !is_nan_SFnn. intros Ha Hb Hlt. apply leb_compare.
  destruct (SFcompare_total _ _ Ha Hb) as [c Hc].
  destruct c; auto.
  apply SFcompare_opp in Hc. simpl in Hc. apply ltb_compare in Hc. congruence.
Qed.


End DoubleOrder.

(** ** The open list in use: positions, sequences of operations, service
    order

    What the planner does with [open_list_] beyond one insertion or one
    erasure: it dereferences the position kept in a node ([open_it]), it
    inserts entries under keys that may tie, and it takes the front entry
    until the container is empty. *)

Module OpenList.

Section WithValue.
Context {V : Type}.

Implicit Types (m : Multimap.t V) (e x : Multimap.entry V).
Implicit Types (l : list (Multimap.entry V)).

(** [*it]: the entry at a position, if the position is live. *)
Definition deref (it : positive) (m : Multimap.t V) : option (Multimap.entry V) :=
  List.find (fun e => Pos.eqb (Multimap.e_it e) it) (Multimap.entries m).


(** The pair [(it->first, it->second)] of an entry. *)
Definition pair_of (e : Multimap.entry V) : float * V :=
  (Multimap.e_key e, Multimap.e_val e).

(** [for (auto& p : l) m.insert(p);] *)
Definition insert_all (l : list (float * V)) (m : Multimap.t V) : Multimap.t V :=
  foldl (fun m p => (Multimap.insert p.1 p.2 m).1) m l.


(** Entries whose key compares equal to [k]. *)
Definition with_key (k : float) (l : list (float * V)) : list (float * V) :=
  List.filter (fun p => PrimFloat.eqb p.1 k) l.

(** *** Where an insertion lands *)

Lemma insert_entry_split (e : Multimap.entry V) (l : list (Multimap.entry V)) :
  Multimap.ascending l ->
  exists l1 l2,
    l = l1 ++ l2 /\ Multimap.insert_entry e l = l1 ++ e :: l2 /\
    Forall (fun x =>
      PrimFloat.ltb (Multimap.e_key e) (Multimap.e_key x) = false) l1 /\
    Forall (fun x =>
      PrimFloat.eqb (Multimap.e_key x) (Multimap.e_key e) = false /\
      PrimFloat.ltb (Multimap.e_key x) (Multimap.e_key e) = false) l2 /\
    (forall x, head l2 = Some x ->
       PrimFloat.ltb (Multimap.e_key e) (Multimap.e_key x) = true).
Proof.
  unfold Multimap.ascending. induction l as [|e' l IH]; simpl; intros Hs.
  - exists [], []. split; [done|]. split; [done|].
    split; [constructor|]. split; [constructor|]. intros x [=].
  - apply StronglySorted_inv in Hs as [Hl He'].
    destruct (PrimFloat.ltb (Multimap.e_key e) (Multimap.e_key e')) eqn:Hlt.
    + exists [], (e' :: l). split; [done|]. split; [done|].
      split; [by constructor|]. split; [|by intros x [= <-]].
      assert (Hall : Forall (fun x =>
        PrimFloat.ltb (Multimap.e_key x) (Multimap.e_key e') = false)
        (e' :: l)).
      { constructor; [apply Double.ltb_irrefl|exact He']. }
      eapply Forall_impl; [exact Hall|]. intros x Hx; simpl in Hx.
      split; apply not_true_is_false; intros Hc.
      * pose proof (DoubleOrder.eqb_ltb _ _ _ Hc Hlt). congruence.
      * pose proof (Double.ltb_trans _ _ _ Hc Hlt). congruence.
    + destruct (IH Hl) as (l1 & l2 & -> & -> & H1 & H2 & H3).
      exists (e' :: l1), l2. split; [done|]. split; [done|].
      split; [by constructor|]. by split.
Qed.

(** *** Dereferencing *)

Lemma deref_Some it (l : list (Multimap.entry V)) e :
  NoDup (Multimap.e_it <$> l) ->
  List.find (fun x => Pos.eqb (Multimap.e_it x) it) l = Some e <->
  e ∈ l /\ Multimap.e_it e = it.
Proof.
  induction l as [|e' l IH]; simpl; intros Hnd.
  - rewrite elem_of_nil. split; [done|tauto].
  - apply NoDup_cons in Hnd as [Hnotin Hnd]. rewrite elem_of_cons.
    destruct (Pos.eqb_spec (Multimap.e_it e') it) as [Heq|Hne].
    + split.
      * intros [= ->]. auto.
      * intros [[->|He] Hit]; [done|]. exfalso. apply Hnotin.
        rewrite Heq, <- Hit. by apply list_elem_of_fmap_2.
    + rewrite IH by done. split.
      * intros [He Hit]. auto.
      * intros [[->|He] Hit]; [done|auto].
Qed.

Lemma deref_None it (l : list (Multimap.entry V)) :
  List.find (fun x => Pos.eqb (Multimap.e_it x) it) l = None <->
  it ∉ (Multimap.e_it <$> l).
Proof.
  induction l as [|e' l IH]; simpl.
  - split; [intros _; apply not_elem_of_nil|done].
  - rewrite not_elem_of_cons.
    destruct (Pos.eqb_spec (Multimap.e_it e') it) as [Heq|Hne].
    + split; [done|]. intros [Hne _]. congruence.
    + rewrite IH. split; [intros H; split; [congruence|done]|tauto].
Qed.

Lemma find_insert_entry_other it (e : Multimap.entry V) (l : list (Multimap.entry V)) :
  Multimap.e_it e <> it ->
  List.find (fun x => Pos.eqb (Multimap.e_it x) it)
    (Multimap.insert_entry e l) =
  List.find (fun x => Pos.eqb (Multimap.e_it x) it) l.
Proof.
  intros Hne. apply Pos.eqb_neq in Hne.
  induction l as [|e' l IH]; simpl; [by rewrite Hne|].
  destruct (PrimFloat.ltb (Multimap.e_key e) (Multimap.e_key e')); simpl.
  - by rewrite Hne.
  - by rewrite IH.
Qed.

Lemma find_insert_entry_new (e : Multimap.entry V) (l : list (Multimap.entry V)) :
  Multimap.e_it e ∉ (Multimap.e_it <$> l) ->
  List.find (fun x => Pos.eqb (Multimap.e_it x) (Multimap.e_it e))
    (Multimap.insert_entry e l) = Some e.
Proof.
  induction l as [|e' l IH]; simpl; intros Hnotin.
  - by rewrite Pos.eqb_refl.
  - apply not_elem_of_cons in Hnotin as [Hne Hnotin].
    destruct (PrimFloat.ltb (Multimap.e_key e) (Multimap.e_key e')); simpl.
    + by rewrite Pos.eqb_refl.
    + destruct (Pos.eqb_spec (Multimap.e_it e') (Multimap.e_it e));
        [congruence|by apply IH].
Qed.

Lemma find_erase_entry_other it it' (l : list (Multimap.entry V)) :
  it' <> it ->
  List.find (fun x => Pos.eqb (Multimap.e_it x) it')
    (Multimap.erase_entry it l) =
  List.find (fun x => Pos.eqb (Multimap.e_it x) it') l.
Proof.
  intros Hne. induction l as [|e' l IH]; simpl; [done|].
  destruct (Pos.eqb_spec (Multimap.e_it e') it) as [Heq|Hne'].
  - destruct (Pos.eqb_spec (Multimap.e_it e') it'); [congruence|done].
  - simpl. by rewrite IH.
Qed.

Lemma find_erase_entry_same it (l : list (Multimap.entry V)) :
  NoDup (Multimap.e_it <$> l) ->
  List.find (fun x => Pos.eqb (Multimap.e_it x) it)
    (Multimap.erase_entry it l) = None.
Proof.
  induction l as [|e' l IH]; simpl; intros Hnd; [done|].
  apply NoDup_cons in Hnd as [Hnotin Hnd].
  destruct (Pos.eqb_spec (Multimap.e_it e') it) as [Heq|Hne].
  - apply deref_None. by rewrite <- Heq.
  - simpl. destruct (Pos.eqb_spec (Multimap.e_it e') it); [done|by apply IH].
Qed.

(** *** Filling and draining *)


Lemma with_key_insert_entry k (e : Multimap.entry V) (l : list (Multimap.entry V)) :
  Multimap.ascending l ->
  with_key k (pair_of <$> Multimap.insert_entry e l) =
  with_key k (pair_of <$> l) ++ with_key k [pair_of e].
Proof.
  intros Hs.
  destruct (insert_entry_split e l Hs) as (l1 & l2 & -> & -> & _ & H2 & _).
  unfold with_key. rewrite !fmap_app, fmap_cons, !List.filter_app. simpl.
  destruct (PrimFloat.eqb (Multimap.e_key e) k) eqn:Hk.
  - assert (Hnil : List.filter (fun p : float * V => PrimFloat.eqb p.1 k)
                     (pair_of <$> l2) = []).
    { clear -H2 Hk. induction l2 as [|x l2 IH]; simpl; [done|].
      apply Forall_cons in H2 as [[Hx _] H2].
      destruct (PrimFloat.eqb (Multimap.e_key x) k) eqn:Hxk; [|by apply IH].
      pose proof (DoubleOrder.eqb_trans _ _ _ Hxk
                    (DoubleOrder.eqb_sym _ _ Hk)). congruence. }
    rewrite Hnil. by rewrite !app_nil_r.
  - by rewrite !app_nil_r.
Qed.


Lemma filter_sublist {A} (f : A -> bool) (l1 l2 : list A) :
  l1 `sublist_of` l2 -> List.filter f l1 `sublist_of` List.filter f l2.
Proof.
  induction 1 as [|x l1 l2 Hsub IH|x l1 l2 Hsub IH]; simpl; [done| |].
  - destruct (f x); [by apply sublist_skip|done].
  - destruct (f x); [by apply sublist_cons|done].
Qed.

Lemma insert_all_wf (l : list (float * V)) : forall m,
  Multimap.wf m -> Multimap.wf (insert_all l m).
Proof.
  induction l as [|[k0 v0] l IH]; simpl; intros m Hwf; [done|].
  apply IH. by apply Multimap.insert_wf.
Qed.

(** *** Keys that are numbers *)

Lemma ascending_leb (l : list (Multimap.entry V)) :
  Multimap.ascending l ->
  Forall (fun e => PrimFloat.is_nan (Multimap.e_key e) = false) l ->
  StronglySorted
    (fun a b => PrimFloat.leb (Multimap.e_key a) (Multimap.e_key b) = true) l.
Proof.
  unfold Multimap.ascending. induction 1 as [|a l Hs IH Ha]; intros Hn.
  - constructor.
  - apply Forall_cons in Hn as [Hna Hn]. constructor; [by apply IH|].
    rewrite Forall_forall in Ha, Hn. apply Forall_forall. intros b Hb.
    apply DoubleOrder.not_ltb_leb; auto.
Qed.

End WithValue.

End OpenList.

(** ** Properties of the open list in use *)

Section OpenListProperties.
Context {V : Type}.


(** X2.  Iterators of the open list stay valid: the iterator returned by
    an insertion was not live before and dereferences to the new entry;
    an insertion, and an erasure through another iterator, leave what
    every other iterator dereferences to unchanged; an erased iterator is
    live no more; and an iterator dereferences to an entry exactly when
    that entry is in the container under that iterator.  So the position
    a node keeps in [open_it] stays good while other nodes are inserted
    and erased. *)
Theorem iterators_stay_valid (m : Multimap.t V) (k : float) (v : V)
    (it : positive) :
  Multimap.wf m ->
  (OpenList.deref (Multimap.insert k v m).2 m = None /\
   OpenList.deref (Multimap.insert k v m).2 (Multimap.insert k v m).1 =
     Some (Multimap.mkEntry (Multimap.insert k v m).2 k v) /\
   (it <> (Multimap.insert k v m).2 ->
    OpenList.deref it (Multimap.insert k v m).1 = OpenList.deref it m)) /\
  (OpenList.deref it (Multimap.erase it m) = None /\
   forall it', it' <> it ->
     OpenList.deref it' (Multimap.erase it m) = OpenList.deref it' m) /\
  (forall e, OpenList.deref it m = Some e <->
             e ∈ Multimap.entries m /\ Multimap.e_it e = it).
Proof.
  intros Hwf. pose proof (Multimap.insert_fresh k v m Hwf) as Hfresh.
  destruct Hwf as [_ Hnd _]. unfold OpenList.deref. simpl in *.
  split; [|split].
  - split; [by apply OpenList.deref_None|]. split.
    + by apply (OpenList.find_insert_entry_new
                  (Multimap.mkEntry (Multimap.next_it m) k v)).
    + intros Hne. by apply OpenList.find_insert_entry_other.
  - split; [by apply OpenList.find_erase_entry_same|].
    intros it' Hne. by apply OpenList.find_erase_entry_other.
  - intros e. by apply OpenList.deref_Some.
Qed.

(** X3.  Entries of equal key are served first in, first out.  An
    insertion under [k] appends to the sequence of entries whose key
    equals [k] and changes the sequence of no other key; taking the front
    entry removes the head of the sequence of its own key and changes no
    other; and an erasure through a live iterator leaves the entries of
    every key in their order. *)
Theorem equal_keys_first_in_first_out (m : Multimap.t V) (k k' : float)
    (v : V) (it : positive) :
  Multimap.wf m ->
  (OpenList.with_key k'
     (OpenList.pair_of <$> Multimap.entries (Multimap.insert k v m).1) =
   OpenList.with_key k' (OpenList.pair_of <$> Multimap.entries m) ++
   (if PrimFloat.eqb k k' then [(k, v)] else [])) /\
  (forall e m', Multimap.pop m = Some (e, m') ->
     OpenList.with_key k' (OpenList.pair_of <$> Multimap.entries m) =
     (if PrimFloat.eqb (Multimap.e_key e) k' then [OpenList.pair_of e]
      else []) ++
     OpenList.with_key k' (OpenList.pair_of <$> Multimap.entries m')) /\
  (OpenList.with_key k'
     (OpenList.pair_of <$> Multimap.entries (Multimap.erase it m))
   `sublist_of`
   OpenList.with_key k' (OpenList.pair_of <$> Multimap.entries m)).
Proof.
  intros [Hs _ _]. split; [|split].
  - simpl. rewrite OpenList.with_key_insert_entry by done.
    unfold OpenList.with_key, OpenList.pair_of. simpl.
    by destruct (PrimFloat.eqb k k').
  - intros e m'. unfold Multimap.pop, Multimap.front.
    destruct (Multimap.entries m) as [|e0 l] eqn:Hm; [done|]. simpl.
    intros [= <- <-]. simpl. rewrite Hm. simpl. rewrite Pos.eqb_refl.
    unfold OpenList.with_key, OpenList.pair_of. simpl.
    by destruct (PrimFloat.eqb (Multimap.e_key e0) k').
  - unfold OpenList.with_key. simpl.
    apply OpenList.filter_sublist, fmap_sublist, Multimap.erase_entry_sublist.
Qed.


(** X5.  When every key in the open list is a number, the entries are in
    non-decreasing key order under [<=], and the key of the front entry
    is [<=] every key in the container. *)
Theorem front_least_key (m : Multimap.t V) :
  Multimap.wf m ->
  Forall (fun e => PrimFloat.is_nan (Multimap.e_key e) = false)
    (Multimap.entries m) ->
  StronglySorted
    (fun a b => PrimFloat.leb (Multimap.e_key a) (Multimap.e_key b) = true)
    (Multimap.entries m) /\
  forall e e', Multimap.front m = Some e -> e' ∈ Multimap.entries m ->
    PrimFloat.leb (Multimap.e_key e) (Multimap.e_key e') = true.
Proof.
  intros Hwf Hn. split; [apply OpenList.ascending_leb; [apply Hwf|done]|].
  intros e e' Hf He'. apply DoubleOrder.not_ltb_leb.
  - unfold Multimap.front in Hf.
    destruct (Multimap.entries m) as [|e0 l]; [done|].
    injection Hf as ->. by apply Forall_cons in Hn as [? _].
  - rewrite Forall_forall in Hn. by apply Hn.
  - by apply (Multimap.front_minimum m).
Qed.

End OpenListProperties.

(** ** The properties on a concrete open list *)

(** An open list of three cells, two of them under the same key. *)
Definition three_cells : Multimap.t coord :=
  OpenList.insert_all
    [(3%float, (1, 0)); (1%float, (0, 0)); (3%float, (2, 0))] Multimap.empty.

Lemma three_cells_wf : Multimap.wf three_cells.
Proof. apply OpenList.insert_all_wf, Multimap.empty_wf. Qed.

Lemma three_cells_numbers :
  Forall (fun e => PrimFloat.is_nan (Multimap.e_key e) = false)
    (Multimap.entries three_cells).
Proof. repeat constructor. Qed.


Lemma iterators_stay_valid_witness :
  Multimap.wf three_cells /\
  OpenList.deref 2 three_cells =
    Some (Multimap.mkEntry 2 1%float (0, 0)) /\
  OpenList.deref 2 (Multimap.insert 0 (3, 0) three_cells).1 =
    OpenList.deref 2 three_cells /\
  OpenList.deref 2 (Multimap.erase 1 three_cells) =
    OpenList.deref 2 three_cells /\
  OpenList.deref 2 (Multimap.erase 2 three_cells) = None.
Proof.
  pose proof (iterators_stay_valid three_cells 0%float (3, 0) 2%positive
                three_cells_wf) as ((_ & _ & Hins) & _ & _).
  pose proof (iterators_stay_valid three_cells 0%float (3, 0) 1%positive
                three_cells_wf) as (_ & (_ & Herase) & _).
  pose proof (iterators_stay_valid three_cells 0%float (3, 0) 2%positive
                three_cells_wf) as (_ & (Hgone & _) & _).
  split; [exact three_cells_wf|]. split; [vm_compute; reflexivity|].
  split; [apply Hins; vm_compute; discriminate|].
  split; [apply Herase; discriminate|exact Hgone].
Defined.

Lemma equal_keys_first_in_first_out_witness :
  Multimap.wf three_cells /\
  OpenList.with_key 3
    (OpenList.pair_of <$> Multimap.entries three_cells) =
    [(3%float, (1, 0)); (3%float, (2, 0))] /\
  OpenList.with_key 3
    (OpenList.pair_of <$>
       Multimap.entries (Multimap.insert 3 (3, 0) three_cells).1) =
    [(3%float, (1, 0)); (3%float, (2, 0)); (3%float, (3, 0))].
Proof.
  split; [exact three_cells_wf|]. split; [vm_compute; reflexivity|].
  destruct (equal_keys_first_in_first_out three_cells 3%float 3%float (3, 0)
              1%positive three_cells_wf) as (Hins & _).
  etrans; [exact Hins|]. vm_compute. reflexivity.
Defined.

Lemma front_least_key_witness :
  Multimap.wf three_cells /\
  Forall (fun e => PrimFloat.is_nan (Multimap.e_key e) = false)
    (Multimap.entries three_cells) /\
  Multimap.front three_cells = Some (Multimap.mkEntry 2 1%float (0, 0)) /\
  forall e', e' ∈ Multimap.entries three_cells ->
    PrimFloat.leb 1 (Multimap.e_key e') = true.
Proof.
  split; [exact three_cells_wf|]. split; [exact three_cells_numbers|].
  split; [vm_compute; reflexivity|].
  destruct (front_least_key three_cells three_cells_wf three_cells_numbers)
    as [_ Hmin].
  intros e' He'.
  exact (Hmin (Multimap.mkEntry 2 1%float (0, 0)) e' eq_refl He').
Defined.
